(** * bitfield.py: bit fields within a 32-bit instruction word

    A shallow embedding of [bitfield.py] and the properties of its
    [BitField] class and of the free function [sign_extend].

    Python integers are unbounded and signed, so every integer of the
    program is a [Z] here; [<<], [>>], [&] and [|] are [Z.shiftl],
    [Z.shiftr], [Z.land] and [Z.lor], which agree with Python's
    two's-complement view of its integers.  A failed [assert] raises
    [AssertionError]; functions that can raise return a [result].

    Two limits of the interpreter are reachable from [sign_extend] and are
    part of the model: the conversion of an integer to a decimal string,
    which the debug messages do whatever the log level, raises
    [ValueError] above 4300 digits; and [1 << n] cannot be built for a
    huge [n]. *)

From Stdlib Require Import ZArith Lia Bool List.
Import ListNotations.

Local Open Scope Z_scope.

(** ** Outcomes *)

Inductive exn : Set := AssertionError | ValueError | OverflowError.

(** A call returns a value or raises; [HostLimit] stands for a call whose
    outcome is decided by the memory of the machine: it returns where the
    integer it needs can be built, and raises [MemoryError] or
    [OverflowError] where it cannot.  Nothing is stated about such
    calls. *)
Inductive result (A : Type) : Type :=
| Ok (a : A)
| Raise (e : exn)
| HostLimit.

Arguments Ok {A} a.
Arguments Raise {A} e.
Arguments HostLimit {A}.

Definition bind {A B : Type} (m : result A) (k : A -> result B) : result B :=
  match m with
  | Ok a => k a
  | Raise e => Raise e
  | HostLimit => HostLimit
  end.

Notation "x <- m ;; k" := (bind m (fun x => k))
  (at level 61, m at next level, right associativity).

Notation "m ;; k" := (bind m (fun _ => k))
  (at level 61, right associativity).

(** [assert cond] *)
Definition assert (cond : bool) : result unit :=
  if cond then Ok tt else Raise AssertionError.

(** ** Integers of the interpreter *)

(** [sys.int_info.default_max_str_digits]: the longest decimal string that
    [str] makes of an integer. *)
Definition max_str_digits : Z := 4300.

Definition str_limit : Z := 10 ^ max_str_digits.

(** [str(n)], also as ["{}".format(n)] does it.  The program only logs the
    text, at a level that is switched off, so the text is not kept; the
    conversion itself raises [ValueError] when [n] has more than
    [max_str_digits] digits.  ([bin(n)] has no such limit.) *)
Definition str_int (n : Z) : result unit :=
  if Z.abs n <? str_limit then Ok tt else Raise ValueError.

(** [fmt.format(n1, n2, ...)] for the integer arguments of a message, in
    order. *)
Fixpoint format_ints (args : list Z) : result unit :=
  match args with
  | [] => Ok tt
  | n :: rest => str_int n ;; format_ints rest
  end.

(** Shift counts up to [sure_shift] give an integer of at most 128 KiB,
    which every machine builds; from [overflow_shift] on the number of
    digits does not fit the interpreter's size type and the shift raises
    [OverflowError] on every machine. *)
Definition sure_shift : Z := 2 ^ 20.

Definition overflow_shift : Z := 2 ^ 68.

(** [1 << n] *)
Definition one_lshift (n : Z) : result Z :=
  if n <? 0 then Raise ValueError
  else if n <=? sure_shift then Ok (Z.shiftl 1 n)
  else if n <? overflow_shift then HostLimit
  else Raise OverflowError.

(** ** Loops *)

(** [for i in range(n): s = body(s)], for a body that does not read [i].
    [range(n)] is empty when [n <= 0], as [Z.to_nat] is zero there. *)
Fixpoint repeat_body {S : Type} (n : nat) (body : S -> S) (s : S) : S :=
  match n with
  | O => s
  | Datatypes.S k => repeat_body k body (body s)
  end.

Definition for_range {S : Type} (n : Z) (body : S -> S) (s : S) : S :=
  repeat_body (Z.to_nat n) body s.

(** ** The module *)

Definition WORD_SIZE : Z := 32.

(** [sign_extend(field, width)].  [log.debug] drops its message, the
    logger being set to INFO, but the argument is formatted before the
    call in any case; [and] does not evaluate its right operand when the
    left one is false. *)
Definition sign_extend (field width : Z) : result Z :=
  format_ints [field; width] ;;
  assert (width >? 1) ;;
  in_range <- (if field >=? 0
               then bound <- one_lshift (width + 1) ;; Ok (field <? bound)
               else Ok false) ;;
  assert in_range ;;
  sign_bit <- one_lshift (width - 1) ;;
  let mask := sign_bit - 1 in
  if negb (Z.land field sign_bit =? 0) then
    format_ints [width - 1; sign_bit] ;;
    let extended := Z.land field mask - sign_bit in
    format_ints [extended] ;;
    Ok extended
  else
    Ok field.

Module BitField.

(** The attributes that [__init__] sets on [self].  Objects come from
    [__init__] only, so [from_bit] is never negative and the shifts of
    [extract] and [insert] never see a negative count. *)
Record t : Set := Build
  { from_bit : Z;
    to_bit : Z;
    mask : Z }.

Definition __init__ (from_bit to_bit : Z) : result t :=
  assert ((0 <=? from_bit) && (from_bit <? WORD_SIZE)) ;;
  assert ((from_bit <=? to_bit) && (to_bit <=? WORD_SIZE)) ;;
  let mask := 0 in
  let mask :=
    for_range (to_bit - from_bit + 1)
              (fun mask => Z.lor (Z.shiftl mask 1) 1) mask in
  let mask := for_range from_bit (fun mask => Z.shiftl mask 1) mask in
  Ok (Build from_bit to_bit mask).

Definition extract (self : t) (word : Z) : Z :=
  let result := Z.land (mask self) word in
  Z.shiftr result (from_bit self).

Definition insert (self : t) (value word : Z) : Z :=
  let value := Z.shiftl value (from_bit self) in
  let value := Z.land value (mask self) in
  Z.lor word value.

Definition extract_signed (self : t) (word : Z) : result Z :=
  let extracted := extract self word in
  sign_extend extracted (to_bit self - from_bit self + 1).

End BitField.

Import BitField.

(** ** Notions used by the statements *)

(** Number of one-bits of a non-negative integer ([int.bit_count]). *)
Fixpoint popcount_pos (p : positive) : Z :=
  match p with
  | xH => 1
  | xO q => popcount_pos q
  | xI q => 1 + popcount_pos q
  end.

Definition popcount (z : Z) : Z :=
  match z with
  | Zpos p => popcount_pos p
  | _ => 0
  end.

(** [~m] taken over the 32 bits of a word: [~m & 0xFFFFFFFF]. *)
Definition invert32 (m : Z) : Z := Z.land (Z.lnot m) (2 ^ WORD_SIZE - 1).

(** The ranges that the two assertions of [__init__] let through. *)
Definition accepted (f t : Z) : Prop :=
  0 <= f < WORD_SIZE /\ f <= t <= WORD_SIZE.

(** The integers that [str] converts. *)
Definition printable (n : Z) : Prop := Z.abs n < str_limit.

(** The inputs that the two assertions of [sign_extend] let through. *)
Definition sign_extend_pre (field width : Z) : Prop :=
  width > 1 /\ 0 <= field < 2 ^ (width + 1).

(** ** The concrete cases of the documentation *)

Example insert_3_5 :
  bind (__init__ 3 5) (fun b => Ok (insert b 5 6)) = Ok 46.
Proof. reflexivity. Qed.

Example extract_0_3 :
  bind (__init__ 0 3) (fun b => Ok (extract b 181)) = Ok 5.
Proof. reflexivity. Qed.

Example sign_extend_7_3 : sign_extend 7 3 = Ok (-1).
Proof. vm_compute. reflexivity. Qed.

Example sign_extend_3_3 : sign_extend 3 3 = Ok 3.
Proof. vm_compute. reflexivity. Qed.

Example extract_signed_0_7 :
  bind (__init__ 0 7) (fun b => extract_signed b 255) = Ok (-1).
Proof. vm_compute. reflexivity. Qed.

Example init_5_3 : __init__ 5 3 = Raise AssertionError.
Proof. reflexivity. Qed.

(** ** The two loops of [__init__] *)

Lemma shl1_or1 (m : Z) : 0 <= m -> Z.lor (Z.shiftl m 1) 1 = 2 * m + 1.
Proof. intros Hm. destruct m; try lia; reflexivity. Qed.

Lemma ones_step (k : Z) :
  0 <= k -> Z.lor (Z.shiftl (Z.ones k) 1) 1 = Z.ones (k + 1).
Proof.
  intros Hk.
  assert (0 < 2 ^ k) by (apply Z.pow_pos_nonneg; lia).
  rewrite shl1_or1 by (rewrite Z.ones_equiv; lia).
  rewrite !Z.ones_equiv, Z.pow_add_r by lia.
  change (2 ^ 1) with 2. lia.
Qed.

Lemma repeat_body_ones (n : nat) :
  forall k : Z, 0 <= k ->
  repeat_body n (fun mask => Z.lor (Z.shiftl mask 1) 1) (Z.ones k)
  = Z.ones (k + Z.of_nat n).
Proof.
  induction n as [|n IH]; intros k Hk.
  - simpl. f_equal. lia.
  - cbn [repeat_body]. rewrite ones_step by exact Hk.
    rewrite IH by lia. f_equal. lia.
Qed.

Lemma repeat_body_shiftl (n : nat) :
  forall m : Z,
  repeat_body n (fun mask => Z.shiftl mask 1) m = Z.shiftl m (Z.of_nat n).
Proof.
  induction n as [|n IH]; intros m.
  - reflexivity.
  - cbn [repeat_body]. rewrite IH, Z.shiftl_shiftl by lia.
    f_equal. lia.
Qed.

(** The mask the two loops build for a field of [n] bits starting at bit [f]. *)
Lemma loops_mask (f n : Z) :
  0 <= f -> 0 <= n ->
  for_range f (fun mask => Z.shiftl mask 1)
    (for_range n (fun mask => Z.lor (Z.shiftl mask 1) 1) 0)
  = Z.shiftl (Z.ones n) f.
Proof.
  intros Hf Hn. unfold for_range.
  change 0 with (Z.ones 0) at 1.
  rewrite repeat_body_ones, repeat_body_shiftl by lia.
  rewrite !Z2Nat.id by lia. reflexivity.
Qed.

(** ** What [__init__] accepts and what it returns *)

Lemma init_accepted (f t : Z) :
  accepted f t ->
  __init__ f t = Ok (Build f t (Z.shiftl (Z.ones (t - f + 1)) f)).
Proof.
  intros [[H1 H2] [H3 H4]]. unfold __init__.
  replace (0 <=? f) with true by (symmetry; apply Z.leb_le; lia).
  replace (f <? WORD_SIZE) with true by (symmetry; apply Z.ltb_lt; lia).
  replace (f <=? t) with true by (symmetry; apply Z.leb_le; lia).
  replace (t <=? WORD_SIZE) with true by (symmetry; apply Z.leb_le; lia).
  cbn [andb assert bind].
  rewrite loops_mask by lia. reflexivity.
Qed.

Lemma init_rejected (f t : Z) :
  ~ accepted f t -> __init__ f t = Raise AssertionError.
Proof.
  intros Hn. unfold __init__, accepted in *.
  destruct (0 <=? f) eqn:E1; [|reflexivity].
  destruct (f <? WORD_SIZE) eqn:E2; [|reflexivity].
  destruct (f <=? t) eqn:E3; [|reflexivity].
  destruct (t <=? WORD_SIZE) eqn:E4; [|reflexivity].
  exfalso. apply Hn.
  apply Z.leb_le in E1, E3, E4. apply Z.ltb_lt in E2. lia.
Qed.

Lemma accepted_dec (f t : Z) : {accepted f t} + {~ accepted f t}.
Proof.
  unfold accepted.
  destruct (Z_le_dec 0 f), (Z_lt_dec f WORD_SIZE),
           (Z_le_dec f t), (Z_le_dec t WORD_SIZE);
    (left; lia) || (right; lia).
Qed.

Lemma init_Ok_inv (f t : Z) (b : BitField.t) :
  __init__ f t = Ok b ->
  accepted f t /\ b = Build f t (Z.shiftl (Z.ones (t - f + 1)) f).
Proof.
  intros H. destruct (accepted_dec f t) as [Ha|Hn].
  - split; [exact Ha|]. rewrite init_accepted in H by exact Ha.
    now inversion H.
  - rewrite init_rejected in H by exact Hn. discriminate.
Qed.

(** ** Bits of the mask *)

Lemma field_mask_bits (f n i : Z) :
  0 <= f -> 0 <= n ->
  Z.testbit (Z.shiftl (Z.ones n) f) i = (f <=? i) && (i <? f + n).
Proof.
  intros Hf Hn. destruct (Z.neg_nonneg_cases i) as [Hi|Hi].
  - rewrite Z.testbit_neg_r by exact Hi.
    replace (f <=? i) with false by (symmetry; apply Z.leb_gt; lia).
    reflexivity.
  - rewrite Z.shiftl_spec by exact Hi.
    destruct (Z.leb_spec f i) as [Hfi|Hfi].
    + rewrite Z.testbit_ones_nonneg by lia.
      destruct (Z.ltb_spec (i - f) n), (Z.ltb_spec i (f + n));
        reflexivity || lia.
    + now rewrite Z.testbit_neg_r by lia.
Qed.

Lemma field_mask_nonneg (f n : Z) :
  0 <= f -> 0 <= n -> 0 <= Z.shiftl (Z.ones n) f.
Proof.
  intros Hf Hn. apply Z.shiftl_nonneg.
  rewrite Z.ones_equiv.
  assert (0 < 2 ^ n) by (apply Z.pow_pos_nonneg; lia). lia.
Qed.

Lemma field_mask_value (f n : Z) :
  0 <= f -> 0 <= n -> Z.shiftl (Z.ones n) f = (2 ^ n - 1) * 2 ^ f.
Proof.
  intros Hf Hn. rewrite Z.shiftl_mul_pow2, Z.ones_equiv by lia. lia.
Qed.

(** ** Counting the bits of the mask *)

Lemma popcount_shl1_or1 (m : Z) :
  0 <= m -> popcount (Z.lor (Z.shiftl m 1) 1) = popcount m + 1.
Proof.
  intros Hm. destruct m as [|p|p]; try lia.
  - reflexivity.
  - change (popcount (Z.lor (Z.shiftl (Z.pos p) 1) 1))
      with (1 + popcount_pos p).
    cbn [popcount]. lia.
Qed.

Lemma popcount_shl1 (m : Z) : popcount (Z.shiftl m 1) = popcount m.
Proof. destruct m; reflexivity. Qed.

Lemma popcount_ones (n : nat) : popcount (Z.ones (Z.of_nat n)) = Z.of_nat n.
Proof.
  induction n as [|n IH]; [reflexivity|].
  rewrite Nat2Z.inj_succ, <- Z.add_1_r, <- ones_step by lia.
  rewrite popcount_shl1_or1, IH; [reflexivity|].
  rewrite Z.ones_equiv.
  assert (0 < 2 ^ Z.of_nat n) by (apply Z.pow_pos_nonneg; lia). lia.
Qed.

Lemma popcount_shiftl (m : Z) (n : nat) :
  popcount (Z.shiftl m (Z.of_nat n)) = popcount m.
Proof.
  induction n as [|n IH]; [now rewrite Z.shiftl_0_r|].
  rewrite Nat2Z.inj_succ, <- Z.add_1_r, <- Z.shiftl_shiftl by lia.
  now rewrite popcount_shl1.
Qed.

Lemma popcount_field_mask (f n : Z) :
  0 <= f -> 0 <= n -> popcount (Z.shiftl (Z.ones n) f) = n.
Proof.
  intros Hf Hn.
  rewrite <- (Z2Nat.id f), <- (Z2Nat.id n) at 1 by lia.
  rewrite popcount_shiftl, popcount_ones. lia.
Qed.

(** ** General bit facts *)

Lemma testbit_high (a n i : Z) :
  0 <= a < 2 ^ n -> 0 <= n <= i -> Z.testbit a i = false.
Proof.
  intros Ha Hi. rewrite <- (Z.mod_small a (2 ^ n)) by exact Ha.
  now apply Z.mod_pow2_bits_high.
Qed.

Lemma land_pow2 (a k : Z) :
  0 <= k -> Z.land a (2 ^ k) = if Z.testbit a k then 2 ^ k else 0.
Proof.
  intros Hk. apply Z.bits_inj'. intros i Hi.
  rewrite Z.land_spec, Z.pow2_bits_eqb by exact Hk.
  destruct (Z.eqb_spec k i) as [->|Hne].
  - destruct (Z.testbit a i); cbn [andb].
    + now rewrite Z.pow2_bits_eqb, Z.eqb_refl by exact Hi.
    + now rewrite Z.testbit_0_l.
  - rewrite andb_false_r. destruct (Z.testbit a k).
    + rewrite Z.pow2_bits_eqb by exact Hk.
      symmetry. now apply Z.eqb_neq.
    + now rewrite Z.testbit_0_l.
Qed.

(** The top bit of a [w]-bit value is set exactly from [2^(w-1)] on. *)
Lemma top_bit (x w : Z) :
  1 <= w -> 0 <= x < 2 ^ w ->
  Z.testbit x (w - 1) = (2 ^ (w - 1) <=? x).
Proof.
  intros Hw Hx.
  assert (Hp : 0 < 2 ^ (w - 1)) by (apply Z.pow_pos_nonneg; lia).
  assert (E : 2 ^ w = 2 * 2 ^ (w - 1)).
  { rewrite <- Z.pow_succ_r by lia. f_equal. lia. }
  rewrite Z.testbit_eqb by lia.
  destruct (Z.leb_spec (2 ^ (w - 1)) x) as [Hle|Hlt].
  - replace (x / 2 ^ (w - 1)) with 1; [reflexivity|].
    apply Z.div_unique with (r := x - 2 ^ (w - 1)); lia.
  - rewrite Z.div_small by lia. reflexivity.
Qed.

(** ** [extract] and [insert] in closed form *)

Lemma extract_div_mod (f n word : Z) (self : BitField.t) :
  0 <= f -> 0 <= n ->
  from_bit self = f -> mask self = Z.shiftl (Z.ones n) f ->
  extract self word = (word / 2 ^ f) mod 2 ^ n.
Proof.
  intros Hf Hn Ef Em. unfold extract. rewrite Ef, Em.
  rewrite Z.shiftr_land, Z.shiftr_shiftl_l, Z.sub_diag, Z.shiftl_0_r by lia.
  rewrite Z.land_comm, Z.land_ones, Z.shiftr_div_pow2 by lia.
  reflexivity.
Qed.

Lemma insert_bits (f n value word i : Z) (self : BitField.t) :
  0 <= f -> 0 <= n ->
  from_bit self = f -> mask self = Z.shiftl (Z.ones n) f ->
  Z.testbit (insert self value word) i
  = Z.testbit word i
    || (Z.testbit value (i - f) && ((f <=? i) && (i <? f + n))).
Proof.
  intros Hf Hn Ef Em. unfold insert. rewrite Ef, Em.
  rewrite Z.lor_spec, Z.land_spec, field_mask_bits by lia.
  destruct (Z.neg_nonneg_cases i) as [Hi|Hi].
  - now rewrite (Z.testbit_neg_r (Z.shiftl value f)),
                 (Z.testbit_neg_r value) by lia.
  - now rewrite Z.shiftl_spec by exact Hi.
Qed.

(** ** The limits of the interpreter *)

(** [10^4300] lies between [2^14284] and [2^14285]: every integer of at
    most 14284 bits is printable, and [2^14285] is not. *)
Lemma str_limit_bounds : 2 ^ 14284 < str_limit /\ str_limit <= 2 ^ 14285.
Proof. split; vm_compute; [reflexivity|discriminate]. Qed.

Lemma printable_bits (x w : Z) :
  0 <= x < 2 ^ w -> w <= 14284 -> printable x.
Proof.
  intros Hx Hw. unfold printable.
  assert (0 <= w).
  { destruct (Z.neg_nonneg_cases w) as [Hneg|]; [|assumption].
    rewrite Z.pow_neg_r in Hx by exact Hneg. lia. }
  assert (Hle : 2 ^ w <= 2 ^ 14284) by (apply Z.pow_le_mono_r; lia).
  pose proof (proj1 str_limit_bounds) as Hlo.
  generalize dependent (2 ^ 14284). intros; lia.
Qed.

Lemma printable_count (n : Z) : - sure_shift <= n <= sure_shift -> printable n.
Proof.
  intros Hn. unfold printable, sure_shift in *.
  assert (Hle : 2 ^ 20 <= 2 ^ 14284) by (apply Z.pow_le_mono_r; lia).
  pose proof (proj1 str_limit_bounds) as Hlo.
  generalize dependent (2 ^ 14284). intros; lia.
Qed.

Lemma width_of_printable (w : Z) : 2 ^ w <= str_limit -> w < sure_shift.
Proof.
  intros Hw.
  destruct (Z.lt_ge_cases w 14286) as [Hlt|Hge];
    [unfold sure_shift; lia|exfalso].
  assert (Hlt : 2 ^ 14285 < 2 ^ w) by (apply Z.pow_lt_mono_r; lia).
  pose proof (proj2 str_limit_bounds) as Hhi.
  generalize dependent (2 ^ 14285). intros; lia.
Qed.

Lemma pow2_below_limit (w : Z) : w <= 14284 -> 2 ^ w <= str_limit.
Proof.
  intros Hw.
  assert (Hle : 2 ^ w <= 2 ^ 14284).
  { destruct (Z.neg_nonneg_cases w) as [Hneg|Hnn].
    - rewrite Z.pow_neg_r by exact Hneg.
      apply Z.lt_le_incl, Z.pow_pos_nonneg; lia.
    - apply Z.pow_le_mono_r; lia. }
  pose proof (proj1 str_limit_bounds) as Hlo.
  generalize dependent (2 ^ 14284). intros; lia.
Qed.

Lemma str_int_printable (n : Z) : printable n -> str_int n = Ok tt.
Proof.
  unfold printable, str_int. intros Hn.
  now replace (Z.abs n <? str_limit) with true
    by (symmetry; apply Z.ltb_lt; exact Hn).
Qed.

Lemma str_int_unprintable (n : Z) : ~ printable n -> str_int n = Raise ValueError.
Proof.
  unfold printable, str_int. intros Hn.
  now replace (Z.abs n <? str_limit) with false
    by (symmetry; apply Z.ltb_ge; lia).
Qed.

Lemma one_lshift_sure (n : Z) :
  0 <= n <= sure_shift -> one_lshift n = Ok (2 ^ n).
Proof.
  intros Hn. unfold one_lshift.
  replace (n <? 0) with false by (symmetry; apply Z.ltb_ge; lia).
  replace (n <=? sure_shift) with true by (symmetry; apply Z.leb_le; lia).
  now rewrite Z.shiftl_1_l.
Qed.

Lemma testbit_true_ge (x k : Z) :
  0 <= x -> 0 <= k -> Z.testbit x k = true -> 2 ^ k <= x.
Proof.
  intros Hx Hk Hb. destruct (Z.le_gt_cases (2 ^ k) x) as [|Hlt]; [assumption|].
  rewrite (testbit_high x k k) in Hb by lia. discriminate.
Qed.

(** ** [sign_extend] *)

(** The first debug message of [sign_extend] stops the call before the
    assertions are reached. *)
Lemma sign_extend_unprintable (field width : Z) :
  ~ printable field \/ ~ printable width ->
  sign_extend field width = Raise ValueError.
Proof.
  intros Hn. unfold sign_extend. cbn [format_ints].
  destruct (Z.lt_ge_cases (Z.abs field) str_limit) as [Hp|Hp].
  - destruct Hn as [Hn|Hn]; [contradiction|].
    rewrite (str_int_printable field), (str_int_unprintable width)
      by assumption.
    reflexivity.
  - rewrite (str_int_unprintable field) by (unfold printable; lia).
    reflexivity.
Qed.

Lemma sign_extend_accepts (field width : Z) :
  printable field -> width < sure_shift ->
  sign_extend_pre field width ->
  sign_extend field width
  = Ok (if Z.testbit field (width - 1)
        then field mod 2 ^ (width - 1) - 2 ^ (width - 1)
        else field).
Proof.
  intros Hpf Hws [Hw [H0 H1]]. unfold sign_extend. cbn [format_ints].
  rewrite (str_int_printable field) by exact Hpf.
  rewrite (str_int_printable width) by (apply printable_count; lia).
  cbn [bind].
  replace (width >? 1) with true by (symmetry; apply Z.gtb_gt; exact Hw).
  replace (field >=? 0) with true
    by (symmetry; rewrite Z.geb_leb; apply Z.leb_le; exact H0).
  rewrite !one_lshift_sure by lia. cbn [assert bind].
  replace (field <? 2 ^ (width + 1)) with true
    by (symmetry; apply Z.ltb_lt; exact H1).
  cbn [assert bind].
  assert (Hp : 0 < 2 ^ (width - 1)) by (apply Z.pow_pos_nonneg; lia).
  rewrite land_pow2 by lia.
  destruct (Z.testbit field (width - 1)) eqn:Hbit; [|reflexivity].
  replace (2 ^ (width - 1) =? 0) with false
    by (symmetry; apply Z.eqb_neq; lia).
  cbn [negb]. cbv zeta.
  replace (2 ^ (width - 1) - 1) with (Z.ones (width - 1))
    by (rewrite Z.ones_equiv; lia).
  rewrite Z.land_ones by lia.
  apply testbit_true_ge in Hbit; [|lia|lia].
  pose proof (Z.mod_pos_bound field (2 ^ (width - 1)) Hp) as Hm.
  unfold printable in Hpf.
  rewrite (str_int_printable (width - 1)) by (apply printable_count; lia).
  rewrite (str_int_printable (2 ^ (width - 1))) by (unfold printable; lia).
  rewrite (str_int_printable (field mod 2 ^ (width - 1) - 2 ^ (width - 1)))
    by (unfold printable; lia).
  reflexivity.
Qed.

Lemma sign_extend_rejects (field width : Z) :
  printable field -> printable width -> width < sure_shift ->
  ~ sign_extend_pre field width ->
  sign_extend field width = Raise AssertionError.
Proof.
  intros Hpf Hpw Hws Hn. unfold sign_extend, sign_extend_pre in *.
  cbn [format_ints].
  rewrite (str_int_printable field), (str_int_printable width) by assumption.
  cbn [bind].
  destruct (Z.gtb_spec width 1) as [Hw|Hw]; [|reflexivity].
  cbn [assert bind]. rewrite Z.geb_leb.
  destruct (Z.leb_spec 0 field) as [H0|H0]; [|reflexivity].
  rewrite one_lshift_sure by lia. cbn [bind].
  destruct (Z.ltb_spec field (2 ^ (width + 1))) as [H1|H1]; [|reflexivity].
  exfalso. apply Hn. lia.
Qed.

(** On a value that fits in [width] bits, [sign_extend] is the
    two's-complement reading of these bits. *)
Lemma sign_extend_fits (field width : Z) :
  width > 1 -> width < sure_shift ->
  0 <= field < 2 ^ width -> field < str_limit ->
  sign_extend field width
  = Ok (if field <? 2 ^ (width - 1) then field else field - 2 ^ width).
Proof.
  intros Hw Hws Hf Hpf.
  assert (Hp : 0 < 2 ^ (width - 1)) by (apply Z.pow_pos_nonneg; lia).
  assert (E : 2 ^ width = 2 * 2 ^ (width - 1)).
  { rewrite <- Z.pow_succ_r by lia. f_equal. lia. }
  assert (E' : 2 ^ (width + 1) = 2 * 2 ^ width).
  { rewrite <- Z.pow_succ_r by lia. f_equal. }
  rewrite sign_extend_accepts
    by (unfold sign_extend_pre, printable; lia).
  rewrite top_bit by lia. f_equal.
  destruct (Z.leb_spec (2 ^ (width - 1)) field) as [Hle|Hlt];
    destruct (Z.ltb_spec field (2 ^ (width - 1))) as [Hlt'|Hle'];
    try lia; try reflexivity.
  replace (field mod 2 ^ (width - 1)) with (field - 2 ^ (width - 1)); [lia|].
  apply Z.mod_unique with (q := 1); lia.
Qed.

(** The fields and widths that [extract_signed] hands to [sign_extend]
    are far below the limits. *)
Lemma word_field_limits (x w : Z) :
  0 <= x < 2 ^ w -> w <= 33 -> w < sure_shift /\ x < str_limit.
Proof.
  intros Hx Hw. split; [unfold sure_shift; lia|].
  pose proof (printable_bits x w Hx ltac:(lia)) as Hp.
  unfold printable in Hp. lia.
Qed.

(** * Properties of the module *)

(** ** Construction *)

(** C2 (mask construction).  For [0 <= from_bit <= to_bit <= 31] the
    constructor returns a field whose mask is
    [((1 << (to_bit - from_bit + 1)) - 1) << from_bit]: the mask has exactly
    [to_bit - from_bit + 1] one-bits, and bit [i] is set exactly when
    [from_bit <= i <= to_bit], so the ones are contiguous, the lowest at
    [from_bit], and every other bit is zero. *)
Theorem mask_construction (f t : Z) :
  0 <= f -> f <= t -> t <= 31 ->
  exists b : BitField.t,
    __init__ f t = Ok b
    /\ mask b = Z.shiftl (Z.shiftl 1 (t - f + 1) - 1) f
    /\ popcount (mask b) = t - f + 1
    /\ forall i : Z, Z.testbit (mask b) i = (f <=? i) && (i <=? t).
Proof.
  intros H0 Hft Ht.
  exists (Build f t (Z.shiftl (Z.ones (t - f + 1)) f)).
  split; [apply init_accepted; unfold accepted, WORD_SIZE; lia|].
  cbn [mask]. split; [|split].
  - unfold Z.ones. now rewrite Z.sub_1_r.
  - apply popcount_field_mask; lia.
  - intros i. rewrite field_mask_bits by lia. f_equal.
    destruct (Z.ltb_spec i (f + (t - f + 1))), (Z.leb_spec i t);
      reflexivity || lia.
Qed.

Lemma mask_construction_witness :
  exists b : BitField.t,
    __init__ 3 5 = Ok b
    /\ mask b = Z.shiftl (Z.shiftl 1 (5 - 3 + 1) - 1) 3
    /\ popcount (mask b) = 5 - 3 + 1
    /\ forall i : Z, Z.testbit (mask b) i = (3 <=? i) && (i <=? 5).
Proof. apply (mask_construction 3 5); lia. Defined.

(** C5 (construction raises-iff).  The constructor raises exactly when
    [0 <= from_bit < 32] and [from_bit <= to_bit <= 32] do not both hold,
    and returns a field exactly when they do; [BitField(5, 3)] raises, and
    [to_bit = 32] is accepted for every legal [from_bit]. *)
Theorem construction_raises_iff :
  (forall f t : Z,
     __init__ f t = Raise AssertionError
     <-> ~ (0 <= f < 32 /\ f <= t <= 32))
  /\ (forall f t : Z,
        (exists b, __init__ f t = Ok b) <-> (0 <= f < 32 /\ f <= t <= 32))
  /\ __init__ 5 3 = Raise AssertionError
  /\ (forall f : Z, (exists b, __init__ f 32 = Ok b) <-> 0 <= f < 32).
Proof.
  assert (Hok : forall f t : Z,
             (exists b, __init__ f t = Ok b)
             <-> (0 <= f < 32 /\ f <= t <= 32)).
  { intros f t. split.
    - intros [b Hb]. now apply init_Ok_inv in Hb.
    - intros Ha. eexists. apply init_accepted. exact Ha. }
  split; [|split; [exact Hok|split; [reflexivity|]]].
  - intros f t. split.
    + intros Hr Ha. apply (init_accepted f t) in Ha. congruence.
    + apply init_rejected.
  - intros f. rewrite Hok. lia.
Qed.

(** C7 (the mask is a 32-bit value), failing input [BitField(0, 32)].
    The constructor accepts [to_bit = 32] and then builds a mask of 33
    ones, [2^33 - 1], which is not in [[0, 2^32 - 1]]. *)
Theorem mask_exceeds_word_at_to_bit_32 :
  __init__ 0 32 = Ok (Build 0 32 8589934591)
  /\ ~ (0 <= 8589934591 <= 2 ^ 32 - 1)
  /\ ~ (forall (f t : Z) (b : BitField.t),
          __init__ f t = Ok b -> 0 <= mask b <= 2 ^ 32 - 1).
Proof.
  split; [reflexivity|]. split; [lia|].
  intros H. specialize (H 0 32 (Build 0 32 8589934591) eq_refl).
  cbn [mask] in H. lia.
Qed.

(** With [to_bit <= 31], as the docstring of [__init__] describes the
    range, the mask does fit in a word. *)
Lemma mask_fits_word_below_32 (f t : Z) (b : BitField.t) :
  __init__ f t = Ok b -> t <= 31 -> 0 <= mask b <= 2 ^ 32 - 1.
Proof.
  intros Hb Ht. apply init_Ok_inv in Hb. destruct Hb as [Ha ->].
  unfold accepted, WORD_SIZE in Ha. cbn [mask].
  split; [apply field_mask_nonneg; lia|].
  rewrite field_mask_value by lia.
  assert (0 < 2 ^ f) by (apply Z.pow_pos_nonneg; lia).
  assert (2 ^ (t - f + 1) * 2 ^ f = 2 ^ (t + 1)).
  { rewrite <- Z.pow_add_r by lia. f_equal. lia. }
  assert (2 ^ (t + 1) <= 2 ^ 32) by (apply Z.pow_le_mono_r; lia).
  lia.
Qed.

(** ** [extract] and [insert] *)

(** C4 (extract).  For a constructed field and a 32-bit word, [extract]
    (a total function: it has no failure case) returns
    [(mask & word) >> from_bit], a value in
    [[0, 2^(to_bit - from_bit + 1) - 1]]. *)
Theorem extract_value_and_range (f t word : Z) (b : BitField.t) :
  __init__ f t = Ok b ->
  0 <= word < 2 ^ 32 ->
  extract b word = Z.shiftr (Z.land (mask b) word) f
  /\ 0 <= extract b word <= 2 ^ (t - f + 1) - 1.
Proof.
  intros Hb _. apply init_Ok_inv in Hb. destruct Hb as [Ha ->].
  unfold accepted, WORD_SIZE in Ha. split; [reflexivity|].
  rewrite (extract_div_mod f (t - f + 1)) by (reflexivity || lia).
  assert (0 < 2 ^ (t - f + 1)) by (apply Z.pow_pos_nonneg; lia).
  pose proof (Z.mod_pos_bound (word / 2 ^ f) (2 ^ (t - f + 1))). lia.
Qed.

Lemma extract_value_and_range_witness :
  extract (Build 0 3 15) 181 = Z.shiftr (Z.land 15 181) 0
  /\ 0 <= extract (Build 0 3 15) 181 <= 2 ^ (3 - 0 + 1) - 1.
Proof.
  apply (extract_value_and_range 0 3 181 (Build 0 3 15));
    [reflexivity | lia].
Defined.

(** C1 (round trip).  For [0 <= from_bit <= to_bit <= 31], a value that
    fits in the field and a 32-bit word whose bits [from_bit..to_bit] are
    zero, extracting after inserting gives the value back. *)
Theorem extract_insert_roundtrip (f t value word : Z) (b : BitField.t) :
  0 <= f -> f <= t -> t <= 31 ->
  __init__ f t = Ok b ->
  0 <= value < 2 ^ (t - f + 1) ->
  0 <= word < 2 ^ 32 ->
  (forall i : Z, f <= i <= t -> Z.testbit word i = false) ->
  extract b (insert b value word) = value.
Proof.
  intros H0 Hft Ht Hb Hv _ Hz.
  apply init_Ok_inv in Hb. destruct Hb as [_ ->].
  apply Z.bits_inj'. intros i Hi.
  unfold extract. cbn [mask from_bit].
  rewrite Z.shiftr_spec, Z.land_spec, field_mask_bits by lia.
  rewrite (insert_bits f (t - f + 1)) by (reflexivity || lia).
  replace (i + f - f) with i by lia.
  replace (f <=? i + f) with true by (symmetry; apply Z.leb_le; lia).
  cbn [andb].
  destruct (Z.ltb_spec (i + f) (f + (t - f + 1))) as [Hin|Hout].
  - rewrite Hz by lia. cbn [andb orb]. now rewrite andb_true_r.
  - cbn [andb]. symmetry. apply (testbit_high value (t - f + 1)); lia.
Qed.

Lemma extract_insert_roundtrip_witness :
  extract (Build 3 5 56) (insert (Build 3 5 56) 5 6) = 5.
Proof.
  apply (extract_insert_roundtrip 3 5 5 6 (Build 3 5 56));
    [lia | lia | lia | reflexivity | lia | lia |].
  intros i Hi.
  assert (Hc : i = 3 \/ i = 4 \/ i = 5) by lia.
  destruct Hc as [-> | [-> | ->]]; reflexivity.
Defined.

(** C6 (truncation).  For a constructed field, a non-negative value of any
    size and a 32-bit word, [insert] (a total function: it never raises)
    gives the same word for [value] and for [value & (mask >> from_bit)]. *)
Theorem insert_truncates (f t value word : Z) (b : BitField.t) :
  __init__ f t = Ok b ->
  0 <= value ->
  0 <= word < 2 ^ 32 ->
  insert b value word
  = insert b (Z.land value (Z.shiftr (mask b) (from_bit b))) word.
Proof.
  intros Hb _ _. apply init_Ok_inv in Hb. destruct Hb as [Ha ->].
  unfold accepted, WORD_SIZE in Ha. cbn [mask from_bit].
  apply Z.bits_inj'. intros i Hi.
  rewrite !(insert_bits f (t - f + 1)) by (reflexivity || lia).
  f_equal.
  destruct (Z.leb_spec f i) as [Hfi|Hfi]; [|now rewrite !andb_false_r].
  rewrite Z.land_spec, Z.shiftr_spec, field_mask_bits by lia.
  replace (i - f + f) with i by lia.
  replace (f <=? i) with true by (symmetry; apply Z.leb_le; lia).
  destruct (Z.testbit value (i - f)), (i <? f + (t - f + 1)); reflexivity.
Qed.

Lemma insert_truncates_witness :
  insert (Build 3 5 56) 255 6
  = insert (Build 3 5 56) (Z.land 255 (Z.shiftr 56 3)) 6.
Proof.
  apply (insert_truncates 3 5 255 6 (Build 3 5 56)); [reflexivity|lia|lia].
Defined.

(** C10 (frame of insert).  For a constructed field, a non-negative value
    and a 32-bit word, [insert] leaves every bit outside
    [from_bit..to_bit] as it is in [word]:
    [insert(value, word) & ~mask == word & ~mask], with [~mask] taken over
    32 bits; and a bit that is set in [word] is still set in the result. *)
Theorem insert_frame (f t value word : Z) (b : BitField.t) :
  __init__ f t = Ok b ->
  0 <= value ->
  0 <= word < 2 ^ 32 ->
  Z.land (insert b value word) (invert32 (mask b))
  = Z.land word (invert32 (mask b))
  /\ (forall i : Z,
        ~ (f <= i <= t) ->
        Z.testbit (insert b value word) i = Z.testbit word i)
  /\ (forall i : Z,
        Z.testbit word i = true ->
        Z.testbit (insert b value word) i = true).
Proof.
  intros Hb _ _. apply init_Ok_inv in Hb. destruct Hb as [Ha ->].
  unfold accepted, WORD_SIZE in Ha.
  assert (Hbits : forall i : Z,
             Z.testbit (insert (Build f t (Z.shiftl (Z.ones (t - f + 1)) f))
                               value word) i
             = Z.testbit word i
               || (Z.testbit value (i - f)
                   && ((f <=? i) && (i <? f + (t - f + 1))))).
  { intros i. apply insert_bits; reflexivity || lia. }
  split; [|split].
  - apply Z.bits_inj'. intros i Hi. unfold invert32. cbn [mask].
    rewrite !Z.land_spec, Z.lnot_spec, field_mask_bits, Hbits by lia.
    destruct (Z.testbit word i), (Z.testbit value (i - f)),
             ((f <=? i) && (i <? f + (t - f + 1))); reflexivity.
  - intros i Hout. rewrite Hbits.
    destruct (Z.leb_spec f i), (Z.ltb_spec i (f + (t - f + 1)));
      try lia; cbn [andb]; now rewrite andb_false_r, orb_false_r.
  - intros i Hset. now rewrite Hbits, Hset.
Qed.

Lemma insert_frame_witness :
  Z.land (insert (Build 3 5 56) 5 71) (invert32 56)
  = Z.land 71 (invert32 56)
  /\ (forall i : Z,
        ~ (3 <= i <= 5) ->
        Z.testbit (insert (Build 3 5 56) 5 71) i = Z.testbit 71 i)
  /\ (forall i : Z,
        Z.testbit 71 i = true ->
        Z.testbit (insert (Build 3 5 56) 5 71) i = true).
Proof.
  apply (insert_frame 3 5 5 71 (Build 3 5 56)); [reflexivity|lia|lia].
Defined.

(** ** [sign_extend] and [extract_signed] *)

(** C9 (sign_extend raises-iff), as amended: for a field and a width
    that [str] converts (fewer than 4301 digits) and a width below [2^20],
    [sign_extend(field, width)] raises, with [AssertionError], exactly
    when [width <= 1] or [field] is outside [[0, 2^(width+1))], and
    returns a value exactly when both preconditions hold. *)
Theorem sign_extend_raises_iff (field width : Z) :
  printable field ->
  printable width ->
  width < sure_shift ->
  (sign_extend field width = Raise AssertionError
   <-> (width <= 1 \/ ~ (0 <= field < 2 ^ (width + 1))))
  /\ ((exists r, sign_extend field width = Ok r)
      <-> (width > 1 /\ 0 <= field < 2 ^ (width + 1))).
Proof.
  intros Hpf Hpw Hws.
  assert (Hdec : sign_extend_pre field width \/ ~ sign_extend_pre field width).
  { unfold sign_extend_pre.
    destruct (Z_gt_dec width 1), (Z_le_dec 0 field),
             (Z_lt_dec field (2 ^ (width + 1))); (left; lia) || (right; lia). }
  destruct Hdec as [Hp|Hn].
  - pose proof (sign_extend_accepts _ _ Hpf Hws Hp) as E.
    unfold sign_extend_pre in Hp. split; split.
    + rewrite E. discriminate.
    + lia.
    + intros _. exact Hp.
    + intros _. rewrite E. eexists. reflexivity.
  - pose proof (sign_extend_rejects _ _ Hpf Hpw Hws Hn) as E.
    unfold sign_extend_pre in Hn. split; split.
    + intros _. lia.
    + intros _. exact E.
    + rewrite E. intros [r Hr]. discriminate.
    + intros Hp. contradiction.
Qed.

Lemma sign_extend_raises_iff_witness :
  (sign_extend 7 3 = Raise AssertionError
   <-> (3 <= 1 \/ ~ (0 <= 7 < 2 ^ (3 + 1))))
  /\ ((exists r, sign_extend 7 3 = Ok r)
      <-> (3 > 1 /\ 0 <= 7 < 2 ^ (3 + 1))).
Proof.
  apply (sign_extend_raises_iff 7 3); vm_compute; reflexivity.
Defined.

(** C9 as stated fails at [sign_extend(2^14285, 14300)]: the input
    satisfies [width > 1] and [0 <= field < 2^(width+1)], but the field has
    4301 digits and the first debug message raises [ValueError]. *)
Lemma sign_extend_raises_within_preconditions :
  (14300 > 1 /\ 0 <= 2 ^ 14285 < 2 ^ (14300 + 1))
  /\ sign_extend (2 ^ 14285) 14300 = Raise ValueError.
Proof.
  split; [split; [lia|split]|].
  - apply Z.pow_nonneg. lia.
  - apply Z.pow_lt_mono_r; lia.
  - vm_compute. reflexivity.
Qed.

(** A width of [2^70] passes the first assertion, and the shift of the
    second one raises [OverflowError]. *)
Example sign_extend_0_pow70 : sign_extend 0 (2 ^ 70) = Raise OverflowError.
Proof. vm_compute. reflexivity. Qed.

(** Below zero the unprintable field raises [ValueError] as well, before
    the assertion that would reject it. *)
Example sign_extend_neg_unprintable :
  sign_extend (- 2 ^ 14285) 3 = Raise ValueError.
Proof. vm_compute. reflexivity. Qed.

(** C3 (sign symmetry), as amended: for [1 < w < 2^20] and a field that
    fits in [w] bits, [0 <= field < 2^w], and that [str] converts,
    [field < 10^4300], [sign_extend(field, w)] returns a value that is
    non-negative exactly when [field < 2^(w-1)], and that is
    [field - 2^w] when [field >= 2^(w-1)]. *)
Theorem sign_symmetry (field w : Z) :
  w > 1 ->
  w < sure_shift ->
  0 <= field < 2 ^ w ->
  field < str_limit ->
  exists r : Z,
    sign_extend field w = Ok r
    /\ (r >= 0 <-> field < 2 ^ (w - 1))
    /\ (field >= 2 ^ (w - 1) -> r = field - 2 ^ w).
Proof.
  intros Hw Hws Hf Hpf. rewrite sign_extend_fits by assumption.
  eexists. split; [reflexivity|].
  destruct (Z.ltb_spec field (2 ^ (w - 1))); lia.
Qed.

Lemma sign_symmetry_witness :
  exists r : Z,
    sign_extend 7 3 = Ok r
    /\ (r >= 0 <-> 7 < 2 ^ (3 - 1))
    /\ (7 >= 2 ^ (3 - 1) -> r = 7 - 2 ^ 3).
Proof.
  apply (sign_symmetry 7 3); [lia | reflexivity | lia | reflexivity].
Defined.

(** C3 as stated fails at [sign_extend(4, 2)]: the input satisfies
    [width > 1] and [0 <= field < 2^(width+1)], the result is [4], which is
    non-negative although [4 >= 2^(2-1)], and [4] is not [4 - 2^2]. *)
Lemma sign_symmetry_fails_in_slack :
  (2 > 1 /\ 0 <= 4 < 2 ^ (2 + 1))
  /\ sign_extend 4 2 = Ok 4
  /\ ~ (4 >= 0 <-> 4 < 2 ^ (2 - 1))
  /\ (4 >= 2 ^ (2 - 1) /\ 4 <> 4 - 2 ^ 2).
Proof.
  split; [lia|]. split; [vm_compute; reflexivity|]. split; [|lia].
  intros [H _]. cbn in H. lia.
Qed.

(** Without the bound on the field the amended statement fails too:
    [2^14285] fits in 14286 bits, but it has 4301 digits and the first
    debug message raises [ValueError]. *)
Example sign_extend_unprintable_field :
  sign_extend (2 ^ 14285) 14286 = Raise ValueError.
Proof. vm_compute. reflexivity. Qed.

(** In the slack, with the sign bit of the [w]-bit reading set, the result
    differs from [field - 2^w] as well: [sign_extend(6, 2)] is [-2]. *)
Example sign_extend_6_2 : sign_extend 6 2 = Ok (-2) /\ -2 <> 6 - 2 ^ 2.
Proof. split; [vm_compute; reflexivity|lia]. Qed.

(** C8 (extract_signed).  For a constructed field of width
    [to_bit - from_bit + 1 > 1] and a 32-bit word, [extract_signed] is
    [sign_extend] of [extract(word)] at that width, it returns a value,
    and the value lies in [[-2^(width-1), 2^(width-1) - 1]]. *)
Theorem extract_signed_range (f t word : Z) (b : BitField.t) :
  __init__ f t = Ok b ->
  t - f + 1 > 1 ->
  0 <= word < 2 ^ 32 ->
  extract_signed b word = sign_extend (extract b word) (t - f + 1)
  /\ exists r : Z,
       extract_signed b word = Ok r
       /\ - 2 ^ (t - f + 1 - 1) <= r <= 2 ^ (t - f + 1 - 1) - 1.
Proof.
  intros Hb Hw _. apply init_Ok_inv in Hb. destruct Hb as [Ha ->].
  unfold accepted, WORD_SIZE in Ha. split; [reflexivity|].
  unfold extract_signed. cbn [to_bit from_bit].
  set (w := t - f + 1) in *.
  set (x := extract (Build f t (Z.shiftl (Z.ones w) f)) word).
  assert (Hx : 0 <= x < 2 ^ w).
  { unfold x. rewrite (extract_div_mod f w) by (reflexivity || lia).
    apply Z.mod_pos_bound, Z.pow_pos_nonneg; lia. }
  assert (E : 2 ^ w = 2 * 2 ^ (w - 1)).
  { rewrite <- Z.pow_succ_r by lia. f_equal. lia. }
  destruct (word_field_limits x w Hx) as [Hws Hpx]; [lia|].
  rewrite sign_extend_fits by assumption.
  eexists. split; [reflexivity|].
  destruct (Z.ltb_spec x (2 ^ (w - 1))); lia.
Qed.

Lemma extract_signed_range_witness :
  extract_signed (Build 0 7 255) 255
  = sign_extend (extract (Build 0 7 255) 255) (7 - 0 + 1)
  /\ exists r : Z,
       extract_signed (Build 0 7 255) 255 = Ok r
       /\ - 2 ^ (7 - 0 + 1 - 1) <= r <= 2 ^ (7 - 0 + 1 - 1) - 1.
Proof.
  apply (extract_signed_range 0 7 255 (Build 0 7 255));
    [reflexivity | lia | lia].
Defined.

(** * Further properties *)

(** ** Bit-level view of [extract] and of the inserted value *)

Ltac constructed H :=
  apply init_Ok_inv in H;
  let Ha := fresh "Hrange" in
  destruct H as [Ha ->]; unfold accepted, WORD_SIZE in Ha.

Lemma extract_testbit (f n word i : Z) (self : BitField.t) :
  0 <= f -> 0 <= n ->
  from_bit self = f -> mask self = Z.shiftl (Z.ones n) f ->
  0 <= i ->
  Z.testbit (extract self word) i = (i <? n) && Z.testbit word (i + f).
Proof.
  intros Hf Hn Ef Em Hi. unfold extract. rewrite Ef, Em.
  rewrite Z.shiftr_spec, Z.land_spec, field_mask_bits by lia.
  replace (f <=? i + f) with true by (symmetry; apply Z.leb_le; lia).
  cbn [andb]. f_equal.
  destruct (Z.ltb_spec (i + f) (f + n)), (Z.ltb_spec i n);
    reflexivity || lia.
Qed.

Lemma below_pow2_of_bits (a n : Z) :
  0 <= a -> 0 <= n ->
  (forall i : Z, n <= i -> Z.testbit a i = false) -> a < 2 ^ n.
Proof.
  intros Ha Hn Hbits. destruct (Z.lt_ge_cases a (2 ^ n)) as [Hlt|Hge];
    [exact Hlt|exfalso].
  assert (Hpos : 0 < a).
  { destruct (Z.eq_dec a 0) as [->|]; [|lia].
    assert (0 < 2 ^ n) by (apply Z.pow_pos_nonneg; lia). lia. }
  pose proof (Z.bit_log2 a Hpos) as Hb.
  rewrite Hbits in Hb; [discriminate|].
  now apply Z.log2_le_pow2.
Qed.

(** What [insert] ORs into the word: the low [n] bits of [value], moved up
    to bit [f]. *)
Lemma inserted_part (f n value : Z) :
  0 <= f -> 0 <= n ->
  Z.land (Z.shiftl value f) (Z.shiftl (Z.ones n) f)
  = Z.shiftl (value mod 2 ^ n) f.
Proof.
  intros Hf Hn. rewrite <- Z.shiftl_land, Z.land_ones by lia. reflexivity.
Qed.

Lemma extract_insert_lor (f n value word : Z) (self : BitField.t) :
  0 <= f -> 0 <= n ->
  from_bit self = f -> mask self = Z.shiftl (Z.ones n) f ->
  extract self (insert self value word)
  = Z.lor (extract self word) (value mod 2 ^ n).
Proof.
  intros Hf Hn Ef Em. apply Z.bits_inj'. intros i Hi.
  rewrite Z.lor_spec, !(extract_testbit f n) by assumption.
  rewrite (insert_bits f n) by assumption.
  replace (i + f - f) with i by lia.
  replace (f <=? i + f) with true by (symmetry; apply Z.leb_le; lia).
  destruct (Z.ltb_spec i n) as [Hlt|Hge].
  - rewrite Z.mod_pow2_bits_low by exact Hlt.
    replace (i + f <? f + n) with true by (symmetry; apply Z.ltb_lt; lia).
    cbn [andb]. now rewrite andb_true_r.
  - rewrite Z.mod_pow2_bits_high by lia. reflexivity.
Qed.

Lemma extract_cleared (f n word : Z) (self : BitField.t) :
  0 <= f -> 0 <= n ->
  from_bit self = f -> mask self = Z.shiftl (Z.ones n) f ->
  (forall i : Z, f <= i < f + n -> Z.testbit word i = false) ->
  extract self word = 0.
Proof.
  intros Hf Hn Ef Em Hz. apply Z.bits_inj'. intros i Hi.
  rewrite (extract_testbit f n), Z.bits_0 by assumption.
  destruct (Z.ltb_spec i n); [|reflexivity].
  rewrite Hz by lia. reflexivity.
Qed.

(** The signed reading of the [w]-bit encoding of [v] is [v]. *)
Lemma sign_extend_of_mod (v w : Z) :
  w > 1 -> 2 ^ w <= str_limit -> - 2 ^ (w - 1) <= v < 2 ^ (w - 1) ->
  sign_extend (v mod 2 ^ w) w = Ok v.
Proof.
  intros Hw Hlim Hv.
  pose proof (width_of_printable w Hlim) as Hws.
  assert (Hm : 0 <= v mod 2 ^ w < 2 ^ w)
    by (apply Z.mod_pos_bound, Z.pow_pos_nonneg; lia).
  assert (Hp : 0 < 2 ^ (w - 1)) by (apply Z.pow_pos_nonneg; lia).
  assert (E : 2 ^ w = 2 * 2 ^ (w - 1)).
  { rewrite <- Z.pow_succ_r by lia. f_equal. lia. }
  rewrite sign_extend_fits by lia.
  f_equal. destruct (Z.neg_nonneg_cases v) as [Hneg|Hnn].
  - replace (v mod 2 ^ w) with (v + 2 ^ w)
      by (apply Z.mod_unique with (q := -1); lia).
    destruct (Z.ltb_spec (v + 2 ^ w) (2 ^ (w - 1))); lia.
  - rewrite Z.mod_small by lia.
    destruct (Z.ltb_spec v (2 ^ (w - 1))); lia.
Qed.

(** ** Reading back what was inserted *)

(** X1.  For every constructed field and all integers [value] and [word],
    extracting after inserting gives the old content of the field OR-ed
    with the low [to_bit - from_bit + 1] bits of [value]: a field that was
    not zero is merged with, not replaced by, the new value. *)
Theorem extract_after_insert (f t value word : Z) (b : BitField.t) :
  __init__ f t = Ok b ->
  extract b (insert b value word)
  = Z.lor (extract b word) (value mod 2 ^ (t - f + 1)).
Proof.
  intros Hb. constructed Hb.
  apply (extract_insert_lor f (t - f + 1)); reflexivity || lia.
Qed.

Lemma extract_after_insert_witness :
  extract (Build 3 5 56) (insert (Build 3 5 56) 13 16)
  = Z.lor (extract (Build 3 5 56) 16) (13 mod 2 ^ (5 - 3 + 1)).
Proof. apply (extract_after_insert 3 5 13 16 (Build 3 5 56)). reflexivity. Defined.

(** X2.  Bit [i] of [extract(word)] is bit [from_bit + i] of [word] for
    [0 <= i <= to_bit - from_bit] and zero above: the result depends on the
    bits of the field only. *)
Theorem extract_bit_view (f t word i : Z) (b : BitField.t) :
  __init__ f t = Ok b ->
  0 <= i ->
  Z.testbit (extract b word) i = (i <=? t - f) && Z.testbit word (f + i).
Proof.
  intros Hb Hi. constructed Hb.
  rewrite (extract_testbit f (t - f + 1)) by (reflexivity || lia).
  rewrite (Z.add_comm i f). f_equal.
  destruct (Z.ltb_spec i (t - f + 1)), (Z.leb_spec i (t - f));
    reflexivity || lia.
Qed.

Lemma extract_bit_view_witness :
  Z.testbit (extract (Build 3 5 56) 40) 2
  = (2 <=? 5 - 3) && Z.testbit 40 (3 + 2).
Proof.
  apply (extract_bit_view 3 5 40 2 (Build 3 5 56)); [reflexivity|lia].
Defined.

(** X3.  On a word whose bits [from_bit..to_bit] are zero, [insert] is an
    addition: the result is [word + (value mod 2^width) * 2^from_bit], for
    every integer [value], negative ones included. *)
Theorem insert_adds_into_cleared_field (f t value word : Z) (b : BitField.t) :
  __init__ f t = Ok b ->
  (forall i : Z, f <= i <= t -> Z.testbit word i = false) ->
  insert b value word = word + (value mod 2 ^ (t - f + 1)) * 2 ^ f.
Proof.
  intros Hb Hz. constructed Hb. unfold insert. cbn [mask from_bit].
  rewrite inserted_part by lia.
  assert (Hd : Z.land word (Z.shiftl (value mod 2 ^ (t - f + 1)) f) = 0).
  { apply Z.bits_inj'. intros i Hi.
    rewrite Z.land_spec, Z.shiftl_spec, Z.bits_0 by exact Hi.
    destruct (Z.lt_ge_cases i f) as [Hlo|Hge].
    - rewrite (Z.testbit_neg_r _ (i - f)) by lia. apply andb_false_r.
    - destruct (Z.le_gt_cases i t) as [Hin|Hhi].
      + now rewrite Hz by lia.
      + rewrite Z.mod_pow2_bits_high by lia. apply andb_false_r. }
  rewrite <- Z.lxor_lor, <- Z.add_nocarry_lxor by exact Hd.
  now rewrite Z.shiftl_mul_pow2 by lia.
Qed.

Lemma insert_adds_into_cleared_field_witness :
  insert (Build 3 5 56) 13 6 = 6 + (13 mod 2 ^ (5 - 3 + 1)) * 2 ^ 3.
Proof.
  apply (insert_adds_into_cleared_field 3 5 13 6 (Build 3 5 56));
    [reflexivity|].
  intros i Hi.
  assert (Hc : i = 3 \/ i = 4 \/ i = 5) by lia.
  destruct Hc as [-> | [-> | ->]]; reflexivity.
Defined.

(** X4.  Signed round trip: for a constructed field of at least two bits,
    a value [v] in [[-2^(width-1), 2^(width-1) - 1]] and a word whose field
    bits are zero, [extract_signed(insert(v, word))] returns [v]; a
    negative [v] is stored in two's complement by the masking of
    [insert]. *)
Theorem extract_signed_insert_roundtrip (f t v word : Z) (b : BitField.t) :
  __init__ f t = Ok b ->
  f < t ->
  - 2 ^ (t - f) <= v < 2 ^ (t - f) ->
  (forall i : Z, f <= i <= t -> Z.testbit word i = false) ->
  extract_signed b (insert b v word) = Ok v.
Proof.
  intros Hb Hft Hv Hz. constructed Hb.
  unfold extract_signed. cbn [to_bit from_bit].
  rewrite (extract_insert_lor f (t - f + 1)) by (reflexivity || lia).
  rewrite (extract_cleared f (t - f + 1))
    by (reflexivity || lia || (intros i Hi; apply Hz; lia)).
  rewrite Z.lor_0_l.
  apply sign_extend_of_mod; [lia | apply pow2_below_limit; lia |].
  replace (t - f + 1 - 1) with (t - f) by lia. exact Hv.
Qed.

Lemma extract_signed_insert_roundtrip_witness :
  extract_signed (Build 3 5 56) (insert (Build 3 5 56) (-3) 6) = Ok (-3).
Proof.
  apply (extract_signed_insert_roundtrip 3 5 (-3) 6 (Build 3 5 56));
    [reflexivity | lia | lia |].
  intros i Hi.
  assert (Hc : i = 3 \/ i = 4 \/ i = 5) by lia.
  destruct Hc as [-> | [-> | ->]]; reflexivity.
Defined.

(** X5.  [sign_extend] at a width [w > 1] whose fields [str] converts,
    [2^w <= 10^4300], is the inverse of reduction modulo [2^w] between
    [[-2^(w-1), 2^(w-1))] and [[0, 2^w)]: it maps [v mod 2^w] back to [v],
    and its result on a [w]-bit field is in the signed range and congruent
    to the field modulo [2^w]. *)
Theorem sign_extend_inverts_mod (w : Z) :
  w > 1 ->
  2 ^ w <= str_limit ->
  (forall v : Z,
     - 2 ^ (w - 1) <= v < 2 ^ (w - 1) -> sign_extend (v mod 2 ^ w) w = Ok v)
  /\ (forall field : Z,
        0 <= field < 2 ^ w ->
        exists r : Z,
          sign_extend field w = Ok r
          /\ - 2 ^ (w - 1) <= r < 2 ^ (w - 1)
          /\ r mod 2 ^ w = field).
Proof.
  intros Hw Hlim. split.
  - intros v Hv. now apply sign_extend_of_mod.
  - intros field Hf.
    pose proof (width_of_printable w Hlim) as Hws.
    assert (Hp : 0 < 2 ^ (w - 1)) by (apply Z.pow_pos_nonneg; lia).
    assert (E : 2 ^ w = 2 * 2 ^ (w - 1)).
    { rewrite <- Z.pow_succ_r by lia. f_equal. lia. }
    rewrite sign_extend_fits by lia.
    eexists. split; [reflexivity|].
    destruct (Z.ltb_spec field (2 ^ (w - 1))).
    + split; [lia|]. apply Z.mod_small. lia.
    + split; [lia|]. symmetry.
      apply Z.mod_unique with (q := -1); lia.
Qed.

Lemma sign_extend_inverts_mod_witness :
  sign_extend ((-3) mod 2 ^ 3) 3 = Ok (-3)
  /\ exists r : Z,
       sign_extend 5 3 = Ok r
       /\ - 2 ^ (3 - 1) <= r < 2 ^ (3 - 1)
       /\ r mod 2 ^ 3 = 5.
Proof.
  assert (Hw : 3 > 1) by lia.
  assert (Hlim : 2 ^ 3 <= str_limit) by (vm_compute; discriminate).
  split.
  - apply (proj1 (sign_extend_inverts_mod 3 Hw Hlim)). lia.
  - apply (proj2 (sign_extend_inverts_mod 3 Hw Hlim)). lia.
Defined.

(** X6.  For a constructed field, [extract_signed] raises exactly when the
    field is one bit wide ([to_bit = from_bit]), whatever the word. *)
Theorem extract_signed_raises_iff_one_bit (f t word : Z) (b : BitField.t) :
  __init__ f t = Ok b ->
  (extract_signed b word = Raise AssertionError <-> t = f).
Proof.
  intros Hb. constructed Hb. unfold extract_signed. cbn [to_bit from_bit].
  set (x := extract _ word).
  assert (Hx : 0 <= x < 2 ^ (t - f + 1)).
  { unfold x. rewrite (extract_div_mod f (t - f + 1)) by (reflexivity || lia).
    apply Z.mod_pos_bound, Z.pow_pos_nonneg; lia. }
  split.
  - intros Hr. destruct (Z.eq_dec t f) as [E|Hne]; [exact E|exfalso].
    destruct (word_field_limits _ _ Hx) as [Hws Hpx]; [lia|].
    rewrite sign_extend_fits in Hr; [discriminate|lia|lia|exact Hx|exact Hpx].
  - intros ->.
    destruct (word_field_limits _ _ Hx) as [Hws Hpx]; [lia|].
    apply sign_extend_rejects.
    + unfold printable. lia.
    + apply printable_count. unfold sure_shift. lia.
    + exact Hws.
    + unfold sign_extend_pre. lia.
Qed.

Lemma extract_signed_raises_iff_one_bit_witness :
  extract_signed (Build 4 4 16) 16 = Raise AssertionError <-> 4 = 4.
Proof.
  apply (extract_signed_raises_iff_one_bit 4 4 16 (Build 4 4 16)).
  reflexivity.
Defined.

(** ** Several fields in one word *)

(** X7.  Inserting into one field does not change what another,
    non-overlapping, field extracts. *)
Theorem extract_other_field (f1 t1 f2 t2 value word : Z) (b1 b2 : BitField.t) :
  __init__ f1 t1 = Ok b1 ->
  __init__ f2 t2 = Ok b2 ->
  t1 < f2 \/ t2 < f1 ->
  extract b2 (insert b1 value word) = extract b2 word.
Proof.
  intros H1 H2 Hd. constructed H1. constructed H2.
  apply Z.bits_inj'. intros i Hi.
  rewrite !(extract_testbit f2 (t2 - f2 + 1)) by (reflexivity || lia).
  rewrite (insert_bits f1 (t1 - f1 + 1)) by (reflexivity || lia).
  destruct (Z.ltb_spec i (t2 - f2 + 1)) as [Hin|Hout]; [|reflexivity].
  cbn [andb].
  destruct (Z.leb_spec f1 (i + f2)),
           (Z.ltb_spec (i + f2) (f1 + (t1 - f1 + 1)));
    try lia; cbn [andb]; now rewrite andb_false_r, orb_false_r.
Qed.

Lemma extract_other_field_witness :
  extract (Build 3 5 56) (insert (Build 0 2 7) 5 8) = extract (Build 3 5 56) 8.
Proof.
  apply (extract_other_field 0 2 3 5 5 8 (Build 0 2 7) (Build 3 5 56));
    [reflexivity | reflexivity | lia].
Defined.

(** X8.  Insertions can be done in any order, also into overlapping
    fields, and inserting the same value twice is the same as once. *)
Theorem insert_order_and_repeat (b1 b2 : BitField.t) (v1 v2 word : Z) :
  insert b1 v1 (insert b2 v2 word) = insert b2 v2 (insert b1 v1 word)
  /\ insert b1 v1 (insert b1 v1 word) = insert b1 v1 word.
Proof.
  unfold insert. split.
  - rewrite <- !Z.lor_assoc. f_equal. apply Z.lor_comm.
  - now rewrite <- Z.lor_assoc, Z.lor_diag.
Qed.

(** X9.  With [to_bit <= 31], inserting any integer into a 32-bit word
    gives a 32-bit word. *)
Theorem insert_fits_word (f t value word : Z) (b : BitField.t) :
  __init__ f t = Ok b ->
  t <= 31 ->
  0 <= word < 2 ^ 32 ->
  0 <= insert b value word < 2 ^ 32.
Proof.
  intros Hb Ht Hw. constructed Hb.
  assert (Hnn : 0 <= insert (Build f t (Z.shiftl (Z.ones (t - f + 1)) f))
                            value word).
  { unfold insert. cbn [mask from_bit].
    apply Z.lor_nonneg. split; [lia|].
    apply Z.land_nonneg. right. apply field_mask_nonneg; lia. }
  split; [exact Hnn|].
  apply below_pow2_of_bits; [exact Hnn|lia|].
  intros i Hi.
  rewrite (insert_bits f (t - f + 1)) by (reflexivity || lia).
  rewrite (testbit_high word 32) by lia.
  replace (i <? f + (t - f + 1)) with false
    by (symmetry; apply Z.ltb_ge; lia).
  now rewrite !andb_false_r.
Qed.

Lemma insert_fits_word_witness :
  0 <= insert (Build 28 31 4026531840) (-1) 4294967295 < 2 ^ 32.
Proof.
  apply (insert_fits_word 28 31 (-1) 4294967295 (Build 28 31 4026531840));
    [reflexivity | lia | lia].
Defined.

(** X10.  Two adjacent fields [from_bit..m] and [m+1..to_bit] split the
    field [from_bit..to_bit]: the wide field extracts the low part plus
    [2^(m - from_bit + 1)] times the high part. *)
Theorem extract_adjacent_fields (f m t word : Z) (lo hi b : BitField.t) :
  __init__ f m = Ok lo ->
  __init__ (m + 1) t = Ok hi ->
  __init__ f t = Ok b ->
  extract b word = extract lo word + 2 ^ (m - f + 1) * extract hi word.
Proof.
  intros Hlo Hhi Hb. constructed Hlo. constructed Hhi. constructed Hb.
  rewrite (extract_div_mod f (t - f + 1)),
          (extract_div_mod f (m - f + 1)),
          (extract_div_mod (m + 1) (t - (m + 1) + 1))
    by (reflexivity || lia).
  assert (H1 : 0 < 2 ^ f) by (apply Z.pow_pos_nonneg; lia).
  assert (H2 : 0 < 2 ^ (m - f + 1)) by (apply Z.pow_pos_nonneg; lia).
  assert (H3 : 0 < 2 ^ (t - (m + 1) + 1)) by (apply Z.pow_pos_nonneg; lia).
  replace (2 ^ (t - f + 1)) with (2 ^ (m - f + 1) * 2 ^ (t - (m + 1) + 1))
    by (rewrite <- Z.pow_add_r by lia; f_equal; lia).
  replace (2 ^ (m + 1)) with (2 ^ f * 2 ^ (m - f + 1))
    by (rewrite <- Z.pow_add_r by lia; f_equal; lia).
  rewrite Z.rem_mul_r, Z.div_div by lia. reflexivity.
Qed.

Lemma extract_adjacent_fields_witness :
  extract (Build 0 7 255) 181
  = extract (Build 0 3 15) 181 + 2 ^ (3 - 0 + 1) * extract (Build 4 7 240) 181.
Proof.
  apply (extract_adjacent_fields 0 3 7 181
           (Build 0 3 15) (Build 4 7 240) (Build 0 7 255));
    reflexivity.
Defined.

(** X11.  The masks of two constructed fields have no common bit exactly
    when the two bit ranges do not overlap. *)
Theorem masks_disjoint_iff (f1 t1 f2 t2 : Z) (b1 b2 : BitField.t) :
  __init__ f1 t1 = Ok b1 ->
  __init__ f2 t2 = Ok b2 ->
  (Z.land (mask b1) (mask b2) = 0 <-> (t1 < f2 \/ t2 < f1)).
Proof.
  intros H1 H2. constructed H1. constructed H2. cbn [mask]. split.
  - intros Hz.
    destruct (Z.lt_ge_cases t1 f2) as [|Ha]; [now left|].
    destruct (Z.lt_ge_cases t2 f1) as [|Hb]; [now right|exfalso].
    assert (Hbit : Z.testbit (Z.land (Z.shiftl (Z.ones (t1 - f1 + 1)) f1)
                                     (Z.shiftl (Z.ones (t2 - f2 + 1)) f2))
                             (Z.max f1 f2) = true).
    { rewrite Z.land_spec, !field_mask_bits by lia.
      apply andb_true_iff. split; apply andb_true_iff; split;
        (apply Z.leb_le; lia) || (apply Z.ltb_lt; lia). }
    rewrite Hz, Z.bits_0 in Hbit. discriminate.
  - intros Hd. apply Z.bits_inj'. intros i Hi.
    rewrite Z.land_spec, !field_mask_bits, Z.bits_0 by lia.
    destruct (Z.leb_spec f1 i), (Z.ltb_spec i (f1 + (t1 - f1 + 1))),
             (Z.leb_spec f2 i), (Z.ltb_spec i (f2 + (t2 - f2 + 1)));
      reflexivity || lia.
Qed.

Lemma masks_disjoint_iff_witness :
  Z.land 7 56 = 0 <-> (2 < 3 \/ 5 < 0).
Proof.
  apply (masks_disjoint_iff 0 2 3 5 (Build 0 2 7) (Build 3 5 56));
    reflexivity.
Defined.

(** ** The accepted range [to_bit = 32] *)

(** X12.  For a field constructed with [to_bit = 32], [extract_signed] of
    a 32-bit word never gives a negative number: bit 32 of the word is
    zero, so the result is [extract(word)] itself. *)
Theorem extract_signed_at_to_bit_32 (f word : Z) (b : BitField.t) :
  __init__ f 32 = Ok b ->
  0 <= word < 2 ^ 32 ->
  extract_signed b word = Ok (extract b word).
Proof.
  intros Hb Hw. constructed Hb.
  unfold extract_signed. cbn [to_bit from_bit].
  set (x := extract _ word).
  assert (H1 : 0 < 2 ^ f) by (apply Z.pow_pos_nonneg; lia).
  assert (H2 : 0 < 2 ^ (32 - f)) by (apply Z.pow_pos_nonneg; lia).
  assert (E : 2 ^ (32 - f + 1) = 2 * 2 ^ (32 - f)).
  { rewrite <- Z.pow_succ_r by lia. f_equal. }
  assert (Hx : 0 <= x < 2 ^ (32 - f)).
  { unfold x. rewrite (extract_div_mod f (32 - f + 1)) by (reflexivity || lia).
    assert (Hq : 0 <= word / 2 ^ f < 2 ^ (32 - f)).
    { split; [apply Z.div_pos; lia|].
      apply Z.div_lt_upper_bound; [lia|].
      rewrite <- Z.pow_add_r by lia.
      replace (f + (32 - f)) with 32 by lia. lia. }
    rewrite Z.mod_small by lia. exact Hq. }
  destruct (word_field_limits x (32 - f + 1)) as [Hws Hpx]; [lia|lia|].
  rewrite sign_extend_fits by lia.
  replace (32 - f + 1 - 1) with (32 - f) by lia.
  destruct (Z.ltb_spec x (2 ^ (32 - f))); [reflexivity|lia].
Qed.

Lemma extract_signed_at_to_bit_32_witness :
  extract_signed (Build 0 32 8589934591) 4294967295
  = Ok (extract (Build 0 32 8589934591) 4294967295).
Proof.
  apply (extract_signed_at_to_bit_32 0 4294967295 (Build 0 32 8589934591));
    [reflexivity | lia].
Defined.

(** ** The accepted range [2^width <= field < 2^(width+1)] *)

(** X13.  On a field of [width + 1] bits that [str] converts, which the
    assertion lets through, [sign_extend] looks at bit [width - 1] only:
    below [3 * 2^(width-1)] that bit is clear and the field is returned as
    it is, from there on it is set and the result is
    [field - 2^(width+1)]. *)
Theorem sign_extend_in_slack (field w : Z) :
  w > 1 ->
  2 ^ w <= field < 2 ^ (w + 1) ->
  field < str_limit ->
  exists r : Z,
    sign_extend field w = Ok r
    /\ (field < 3 * 2 ^ (w - 1) -> r = field)
    /\ (3 * 2 ^ (w - 1) <= field -> r = field - 2 ^ (w + 1)).
Proof.
  intros Hw Hf Hpf.
  assert (Hws : w < sure_shift) by (apply width_of_printable; lia).
  assert (Hp : 0 < 2 ^ (w - 1)) by (apply Z.pow_pos_nonneg; lia).
  assert (E : 2 ^ w = 2 * 2 ^ (w - 1)).
  { rewrite <- Z.pow_succ_r by lia. f_equal. lia. }
  assert (E' : 2 ^ (w + 1) = 2 * 2 ^ w).
  { rewrite <- Z.pow_succ_r by lia. f_equal. }
  rewrite sign_extend_accepts by (unfold sign_extend_pre, printable; lia).
  eexists. split; [reflexivity|].
  rewrite Z.testbit_eqb by lia.
  destruct (Z.lt_ge_cases field (3 * 2 ^ (w - 1))) as [Hlo|Hhi].
  - replace (field / 2 ^ (w - 1)) with 2
      by (apply Z.div_unique with (r := field - 2 * 2 ^ (w - 1)); lia).
    change (2 mod 2 =? 1) with false. cbv iota.
    split; [reflexivity|lia].
  - replace (field / 2 ^ (w - 1)) with 3
      by (apply Z.div_unique with (r := field - 3 * 2 ^ (w - 1)); lia).
    replace (field mod 2 ^ (w - 1)) with (field - 3 * 2 ^ (w - 1))
      by (apply Z.mod_unique with (q := 3); lia).
    change (3 mod 2 =? 1) with true. cbv iota.
    split; [lia|]. intros _. lia.
Qed.

Lemma sign_extend_in_slack_witness :
  exists r : Z,
    sign_extend 14 3 = Ok r
    /\ (14 < 3 * 2 ^ (3 - 1) -> r = 14)
    /\ (3 * 2 ^ (3 - 1) <= 14 -> r = 14 - 2 ^ (3 + 1)).
Proof.
  apply (sign_extend_in_slack 14 3); [lia | lia | reflexivity].
Defined.
